(** * Facelet model and move engine of the cube backend

    A shallow embedding of [src/backend/cube_engine.py]: the [Polyhedron]
    class (its 6x3x3 integer matrix, the twelve face turns, the two
    whole-cube reorientations, the move dispatcher and the serializer) and
    the module-level helpers of the API layer (the solution tokenizer and
    the solve endpoint). *)

From Stdlib Require Import ZArith String Ascii List Lia.
From stdpp Require Import base gmap strings list.

Local Open Scope Z_scope.
Local Open Scope string_scope.

(** ** The 6x3x3 array

    [self.matrix] is a NumPy array of shape (6, 3, 3) and dtype int.  The
    shape is fixed for the life of the object and every index in the source
    is a literal, so faces and axis positions are finite enumerations and
    the array is a record: no access can be out of range.  The entries are
    machine integers that are only ever copied, never computed with. *)

Inductive idx3 : Set := i0 | i1 | i2.
Inductive face_idx : Set := f0 | f1 | f2 | f3 | f4 | f5.

#[global] Instance idx3_eq_dec : EqDecision idx3.
Proof. solve_decision. Defined.

#[global] Instance face_idx_eq_dec : EqDecision face_idx.
Proof. solve_decision. Defined.

(** A one-dimensional array of length 3 (a row or column slice). *)
Record strip : Set := Strip { s0 : Z; s1 : Z; s2 : Z }.

(** A 3x3 array: [matrix[k]]. *)
Record layer : Set := Layer { r0 : strip; r1 : strip; r2 : strip }.

(** The whole array; faces in the order U:0, R:1, F:2, D:3, L:4, B:5. *)
Record matrix : Set :=
  Matrix { m0 : layer; m1 : layer; m2 : layer;
           m3 : layer; m4 : layer; m5 : layer }.

Definition at3 (s : strip) (j : idx3) : Z :=
  match j with i0 => s0 s | i1 => s1 s | i2 => s2 s end.

(** [a[i, :]] *)
Definition row (a : layer) (i : idx3) : strip :=
  match i with i0 => r0 a | i1 => r1 a | i2 => r2 a end.

(** [a[:, j]] *)
Definition col (a : layer) (j : idx3) : strip :=
  Strip (at3 (r0 a) j) (at3 (r1 a) j) (at3 (r2 a) j).

Definition set_at3 (j : idx3) (v : Z) (s : strip) : strip :=
  match j with
  | i0 => Strip v (s1 s) (s2 s)
  | i1 => Strip (s0 s) v (s2 s)
  | i2 => Strip (s0 s) (s1 s) v
  end.

(** [a[i, :] = v] *)
Definition set_row (i : idx3) (v : strip) (a : layer) : layer :=
  match i with
  | i0 => Layer v (r1 a) (r2 a)
  | i1 => Layer (r0 a) v (r2 a)
  | i2 => Layer (r0 a) (r1 a) v
  end.

(** [a[:, j] = v] *)
Definition set_col (j : idx3) (v : strip) (a : layer) : layer :=
  Layer (set_at3 j (s0 v) (r0 a))
        (set_at3 j (s1 v) (r1 a))
        (set_at3 j (s2 v) (r2 a)).

(** [m[k]] *)
Definition face (m : matrix) (k : face_idx) : layer :=
  match k with
  | f0 => m0 m | f1 => m1 m | f2 => m2 m
  | f3 => m3 m | f4 => m4 m | f5 => m5 m
  end.

(** [m[k] = a] *)
Definition set_face (k : face_idx) (a : layer) (m : matrix) : matrix :=
  match k with
  | f0 => Matrix a (m1 m) (m2 m) (m3 m) (m4 m) (m5 m)
  | f1 => Matrix (m0 m) a (m2 m) (m3 m) (m4 m) (m5 m)
  | f2 => Matrix (m0 m) (m1 m) a (m3 m) (m4 m) (m5 m)
  | f3 => Matrix (m0 m) (m1 m) (m2 m) a (m4 m) (m5 m)
  | f4 => Matrix (m0 m) (m1 m) (m2 m) (m3 m) a (m5 m)
  | f5 => Matrix (m0 m) (m1 m) (m2 m) (m3 m) (m4 m) a
  end.

(** [m[k][i, :] = v] and [m[k][:, j] = v]: a write through the view [m[k]]. *)
Definition put_row (k : face_idx) (i : idx3) (v : strip) (m : matrix) : matrix :=
  set_face k (set_row i v (face m k)) m.

Definition put_col (k : face_idx) (j : idx3) (v : strip) (m : matrix) : matrix :=
  set_face k (set_col j v (face m k)) m.

(** The NumPy functions the engine calls. *)
Module np.

(** [np.flip] of a one-dimensional array. *)
Definition flip (s : strip) : strip := Strip (s2 s) (s1 s) (s0 s).

(** [np.flipud]: reverse the order of the rows. *)
Definition flipud (a : layer) : layer := Layer (r2 a) (r1 a) (r0 a).

(** [np.fliplr], which [rot90] uses as [flip(m, axes[1])]. *)
Definition fliplr (a : layer) : layer :=
  Layer (flip (r0 a)) (flip (r1 a)) (flip (r2 a)).

Definition transpose (a : layer) : layer :=
  Layer (col a i0) (col a i1) (col a i2).

(** [np.rot90(a, k)]: [k] is reduced modulo 4; 1 is a quarter turn
    counter-clockwise, 3 (that is, -1) a quarter turn clockwise. *)
Definition rot90 (a : layer) (k : Z) : layer :=
  match k mod 4 with
  | 0 => a
  | 1 => transpose (fliplr a)
  | 2 => fliplr (flipud a)
  | _ => fliplr (transpose a)
  end.

(** [a.flatten()] in row-major order. *)
Definition flatten_strip (s : strip) : list Z := [s0 s; s1 s; s2 s].

Definition flatten_layer (a : layer) : list Z :=
  flatten_strip (r0 a) ++ flatten_strip (r1 a) ++ flatten_strip (r2 a).

Definition flatten (m : matrix) : list Z :=
  flatten_layer (m0 m) ++ flatten_layer (m1 m) ++ flatten_layer (m2 m) ++
  flatten_layer (m3 m) ++ flatten_layer (m4 m) ++ flatten_layer (m5 m).

End np.

(** ** class Polyhedron *)

(** [_get_pristine_state]: face [face_id] is filled with [face_id]. *)
Definition face_num (k : face_idx) : Z :=
  match k with
  | f0 => 0 | f1 => 1 | f2 => 2 | f3 => 3 | f4 => 4 | f5 => 5
  end.

Definition full (v : Z) : layer :=
  let r := Strip v v v in Layer r r r.

Definition _get_pristine_state : matrix :=
  Matrix (full (face_num f0)) (full (face_num f1)) (full (face_num f2))
         (full (face_num f3)) (full (face_num f4)) (full (face_num f5)).

Definition reset_to_solved (m : matrix) : matrix := _get_pristine_state.

(** [np.rot90] returns a view of the face it is assigned back to; NumPy
    copies a source that overlaps its destination before it writes, so the
    assignment stores the rotated face as it was read. *)
Definition _rotate_layer_clockwise (face_idx : face_idx) (m : matrix) : matrix :=
  set_face face_idx (np.rot90 (face m face_idx) (-1)) m.

Definition _rotate_layer_counter_clockwise (face_idx : face_idx) (m : matrix) : matrix :=
  set_face face_idx (np.rot90 (face m face_idx) 1) m.

(** The face turns.  Each line of a method is one [let]; [temp] is a copy,
    every other right-hand side is read at the moment of the assignment. *)

Definition _turn_F_cw (m : matrix) : matrix :=
  let m := _rotate_layer_clockwise f2 m in
  let temp := row (face m f0) i2 in
  let m := put_row f0 i2 (np.flip (col (face m f4) i2)) m in
  let m := put_col f4 i2 (row (face m f3) i0) m in
  let m := put_row f3 i0 (np.flip (col (face m f1) i0)) m in
  put_col f1 i0 temp m.

Definition _turn_F_ccw (m : matrix) : matrix :=
  let m := _rotate_layer_counter_clockwise f2 m in
  let temp := row (face m f0) i2 in
  let m := put_row f0 i2 (col (face m f1) i0) m in
  let m := put_col f1 i0 (np.flip (row (face m f3) i0)) m in
  let m := put_row f3 i0 (col (face m f4) i2) m in
  put_col f4 i2 (np.flip temp) m.

Definition _turn_R_cw (m : matrix) : matrix :=
  let m := _rotate_layer_clockwise f1 m in
  let temp := np.flip (col (face m f0) i2) in
  let m := put_col f0 i2 (col (face m f2) i2) m in
  let m := put_col f2 i2 (col (face m f3) i2) m in
  let m := put_col f3 i2 (np.flip (col (face m f5) i0)) m in
  put_col f5 i0 temp m.

Definition _turn_R_ccw (m : matrix) : matrix :=
  let m := _rotate_layer_counter_clockwise f1 m in
  let temp := col (face m f0) i2 in
  let m := put_col f0 i2 (col (face m f5) i0) m in
  let m := put_col f5 i0 (np.flip (col (face m f3) i2)) m in
  let m := put_col f3 i2 (col (face m f2) i2) m in
  put_col f2 i2 temp m.

Definition _turn_U_cw (m : matrix) : matrix :=
  let m := _rotate_layer_clockwise f0 m in
  let temp := row (face m f4) i0 in
  let m := put_row f4 i0 (row (face m f2) i0) m in
  let m := put_row f2 i0 (row (face m f1) i0) m in
  let m := put_row f1 i0 (row (face m f5) i0) m in
  put_row f5 i0 temp m.

Definition _turn_U_ccw (m : matrix) : matrix :=
  let m := _rotate_layer_counter_clockwise f0 m in
  let temp := row (face m f4) i0 in
  let m := put_row f4 i0 (row (face m f5) i0) m in
  let m := put_row f5 i0 (row (face m f1) i0) m in
  let m := put_row f1 i0 (row (face m f2) i0) m in
  put_row f2 i0 temp m.

Definition _turn_L_cw (m : matrix) : matrix :=
  let m := _rotate_layer_clockwise f4 m in
  let temp := col (face m f0) i0 in
  let m := put_col f0 i0 (np.flip (col (face m f5) i2)) m in
  let m := put_col f5 i2 (np.flip (col (face m f3) i0)) m in
  let m := put_col f3 i0 (col (face m f2) i0) m in
  put_col f2 i0 temp m.

Definition _turn_L_ccw (m : matrix) : matrix :=
  let m := _rotate_layer_counter_clockwise f4 m in
  let temp := np.flip (col (face m f0) i0) in
  let m := put_col f0 i0 (col (face m f2) i0) m in
  let m := put_col f2 i0 (col (face m f3) i0) m in
  let m := put_col f3 i0 (np.flip (col (face m f5) i2)) m in
  put_col f5 i2 temp m.

Definition _turn_D_cw (m : matrix) : matrix :=
  let m := _rotate_layer_clockwise f3 m in
  let temp := row (face m f4) i2 in
  let m := put_row f4 i2 (row (face m f5) i2) m in
  let m := put_row f5 i2 (row (face m f1) i2) m in
  let m := put_row f1 i2 (row (face m f2) i2) m in
  put_row f2 i2 temp m.

Definition _turn_D_ccw (m : matrix) : matrix :=
  let m := _rotate_layer_counter_clockwise f3 m in
  let temp := row (face m f4) i2 in
  let m := put_row f4 i2 (row (face m f2) i2) m in
  let m := put_row f2 i2 (row (face m f1) i2) m in
  let m := put_row f1 i2 (row (face m f5) i2) m in
  put_row f5 i2 temp m.

Definition _turn_B_cw (m : matrix) : matrix :=
  let m := _rotate_layer_clockwise f5 m in
  let temp := np.flip (row (face m f0) i0) in
  let m := put_row f0 i0 (col (face m f1) i2) m in
  let m := put_col f1 i2 (np.flip (row (face m f3) i2)) m in
  let m := put_row f3 i2 (col (face m f4) i0) m in
  put_col f4 i0 temp m.

Definition _turn_B_ccw (m : matrix) : matrix :=
  let m := _rotate_layer_counter_clockwise f5 m in
  let temp := row (face m f0) i0 in
  let m := put_row f0 i0 (np.flip (col (face m f4) i0)) m in
  let m := put_col f4 i0 (row (face m f3) i2) m in
  let m := put_row f3 i2 (np.flip (col (face m f1) i2)) m in
  put_col f1 i2 temp m.

Definition _orient_x_pos (m : matrix) : matrix :=
  let temp := face m f0 in
  let m := set_face f0 (face m f2) m in
  let m := set_face f2 (face m f3) m in
  let m := set_face f3 (np.flipud (face m f5)) m in
  let m := set_face f5 (np.flipud temp) m in
  let m := _rotate_layer_clockwise f1 m in
  _rotate_layer_counter_clockwise f4 m.

Definition _orient_x_neg (m : matrix) : matrix :=
  let temp := face m f0 in
  let m := set_face f0 (np.flipud (face m f5)) m in
  let m := set_face f5 (np.flipud (face m f3)) m in
  let m := set_face f3 (face m f2) m in
  let m := set_face f2 temp m in
  let m := _rotate_layer_counter_clockwise f1 m in
  _rotate_layer_clockwise f4 m.

(** ** Exceptions and results

    A Python call either returns or raises.  Methods of the engine act on the
    one matrix of the instance, so a method is a function from the matrix
    before the call to the matrix after it, paired with its outcome. *)

Inductive exn : Set :=
| ValueError (msg : string)
| KeyError (key : Z)
| IndexError
| HTTPException (status_code : Z) (detail : string)
| OtherException.

Inductive result (A : Type) : Type :=
| Ok (a : A)
| Raise (e : exn).
Arguments Ok {A} a.
Arguments Raise {A} e.

Definition method (A : Type) : Type := matrix -> matrix * result A.

Definition ret {A} (a : A) : method A := fun m => (m, Ok a).
Definition raise {A} (e : exn) : method A := fun m => (m, Raise e).
Definition bind {A B} (c : method A) (k : A -> method B) : method B :=
  fun m => match c m with
           | (m', Ok a) => k a m'
           | (m', Raise e) => (m', Raise e)
           end.
(** A method that only mutates the matrix and returns [None]. *)
Definition mutate (f : matrix -> matrix) : method unit := fun m => (f m, Ok tt).

Declare Scope method_scope.
Delimit Scope method_scope with method.
Notation "c1 ;; c2" := (bind c1 (fun _ => c2))
  (at level 100, c2 at level 200, right associativity) : method_scope.

(** ** The move dispatcher *)

(** The two lambdas of the table: the list display evaluates its three calls
    from left to right. *)
Definition _move_M (m : matrix) : matrix :=
  let m := _turn_R_ccw m in
  let m := _turn_L_cw m in
  _orient_x_pos m.

Definition _move_M' (m : matrix) : matrix :=
  let m := _turn_R_cw m in
  let m := _turn_L_ccw m in
  _orient_x_neg m.

Definition _move_dispatcher_items : list (string * (matrix -> matrix)) :=
  [ ("F", _turn_F_cw); ("F'", _turn_F_ccw);
    ("R", _turn_R_cw); ("R'", _turn_R_ccw);
    ("U", _turn_U_cw); ("U'", _turn_U_ccw);
    ("L", _turn_L_cw); ("L'", _turn_L_ccw);
    ("D", _turn_D_cw); ("D'", _turn_D_ccw);
    ("B", _turn_B_cw); ("B'", _turn_B_ccw);
    ("M", _move_M); ("M'", _move_M') ].

Definition _move_dispatcher : gmap string (matrix -> matrix) :=
  list_to_map _move_dispatcher_items.

Definition execute_manipulation (move_notation : string) : method unit :=
  match _move_dispatcher !! move_notation with
  | None => raise (ValueError ("Unknown move notation: " +:+ move_notation))
  | Some f => mutate f
  end.

(** A client issuing one move after the other; the first failure ends the
    sequence. *)
Fixpoint execute_sequence (moves : list string) : method unit :=
  match moves with
  | [] => ret tt
  | t :: rest => (execute_manipulation t ;; execute_sequence rest)%method
  end.

(** ** Serialization *)

Definition FACE_MAP : gmap Z string :=
  list_to_map [ (0, "U"); (1, "R"); (2, "F"); (3, "D"); (4, "L"); (5, "B") ].

(** Iterating over a [str] yields its characters as strings of length 1. *)
Fixpoint str_iter (s : string) : list string :=
  match s with
  | EmptyString => []
  | String c s' => String c EmptyString :: str_iter s'
  end.

(** [s * n] *)
Fixpoint str_mul (s : string) (n : nat) : string :=
  match n with
  | O => ""
  | S n' => s +:+ str_mul s n'
  end.

(** ["".join(l)] *)
Definition str_join_empty (l : list string) : string := String.concat "" l.

Definition SOLVED_KOCIEMBA_STRING : string :=
  str_join_empty (map (fun f => str_mul f 9) (str_iter "URFDLB")).

(** [[FACE_MAP[face_id] for face_id in flat_array]]: the first key that is
    missing raises [KeyError]. *)
Fixpoint face_letters (flat_array : list Z) : result (list string) :=
  match flat_array with
  | [] => Ok []
  | face_id :: rest =>
      match FACE_MAP !! face_id with
      | None => Raise (KeyError face_id)
      | Some letter =>
          match face_letters rest with
          | Ok letters => Ok (letter :: letters)
          | Raise e => Raise e
          end
      end
  end.

Definition to_kociemba_string (m : matrix) : result string :=
  let flat_array := np.flatten m in
  match face_letters flat_array with
  | Ok letters => Ok (str_join_empty letters)
  | Raise e => Raise e
  end.

(** ** The API layer: tokenizer and solve endpoint

    A Python [str] is modelled as a [string] whose characters are the code
    points below 256. *)

(** [c.isspace()] for a code point below 256: tab, line feed, vertical
    tab, form feed, carriage return, the four separators 0x1c-0x1f, space,
    next line (0x85) and no-break space (0xa0). *)
Definition isspace (c : ascii) : bool :=
  let n := N_of_ascii c in
  ((9 <=? n) && (n <=? 13) || (28 <=? n) && (n <=? 32) || (n =? 133) || (n =? 160))%N.

(** [s.split()] without a separator: runs of whitespace separate the words
    and no empty word is produced.  [cur] is the word being read. *)
Fixpoint split_from (cur : string) (s : string) : list string :=
  match s with
  | EmptyString =>
      match cur with EmptyString => [] | _ => [cur] end
  | String c s' =>
      if isspace c then
        match cur with
        | EmptyString => split_from "" s'
        | _ => cur :: split_from "" s'
        end
      else split_from (cur +:+ String c "") s'
  end.

Definition str_split (s : string) : list string := split_from "" s.

(** [sub in s] for strings: [sub] occurs in [s] as a substring. *)
Fixpoint str_in (sub s : string) : bool :=
  if String.prefix sub s then true
  else match s with
       | EmptyString => false
       | String _ s' => str_in sub s'
       end.

(** [s[0]]: a string of length 1, or [IndexError] on the empty string. *)
Definition str_first (s : string) : result string :=
  match s with
  | EmptyString => Raise IndexError
  | String c _ => Ok (String c "")
  end.

(** An element of the list the tokenizer returns: a move string, or a
    list of move strings. *)
Inductive entry : Set :=
| Single (move : string)
| Group (moves : list string).

(** The body of the [for] loop, with the list built so far. *)
Fixpoint tokenize_loop (moves : list string) (tokens : list entry)
  : result (list entry) :=
  match moves with
  | [] => Ok tokens
  | move :: rest =>
      if str_in "2" move then
        match str_first move with
        | Ok base_move => tokenize_loop rest (tokens ++ [Group [base_move; base_move]])
        | Raise e => Raise e
        end
      else tokenize_loop rest (tokens ++ [Single move])
  end.

Definition _tokenize_solution_string (solution_str : string) : result (list entry) :=
  tokenize_loop (str_split solution_str) [].

(** The solving oracle ([kociemba.solve]) is external.  A handler that may
    consult it is a tree: it either finishes, or calls the oracle with a cube
    string and continues with whatever the oracle returned or raised. *)
Inductive calls_solve (A : Type) : Type :=
| Finish (a : A)
| CallSolve (cube_string : string) (k : result string -> calls_solve A).
Arguments Finish {A} a.
Arguments CallSolve {A} cube_string k.

(** Running a handler against a given oracle; the list is the arguments the
    oracle was called with, in order. *)
Fixpoint run_with {A} (solve : string -> result string) (p : calls_solve A)
  : A * list string :=
  match p with
  | Finish a => (a, [])
  | CallSolve s k =>
      let '(a, log) := run_with solve (k (solve s)) in (a, s :: log)
  end.

(** The JSON object the solve endpoint returns. *)
Record solve_response : Set :=
  { solutionString : string; parsedMoves : list entry }.

(** The two [except] clauses of the endpoint. *)
Definition solve_except {A} (e : exn) : result A :=
  match e with
  | ValueError msg => Raise (HTTPException 400 msg)
  | _ => Raise (HTTPException 500 "An internal error occurred during solving.")
  end.

Definition discover_solution_path (m : matrix) : calls_solve (result solve_response) :=
  match to_kociemba_string m with
  | Raise e => Finish (Raise e)
  | Ok current_state_str =>
      if String.eqb current_state_str SOLVED_KOCIEMBA_STRING then
        Finish (Ok {| solutionString := ""; parsedMoves := [] |})
      else
        CallSolve current_state_str (fun r =>
          Finish
            match r with
            | Raise e => solve_except e
            | Ok solution_path =>
                match _tokenize_solution_string solution_path with
                | Raise e => solve_except e
                | Ok move_sequence =>
                    Ok {| solutionString := solution_path;
                          parsedMoves := move_sequence |}
                end
            end)
  end.

(** [restore_pristine_state]: the reset endpoint. *)
Definition restore_pristine_state : method unit := mutate reset_to_solved.

(** ** Sticker positions *)

Definition position : Set := face_idx * idx3 * idx3.

Definition sticker (m : matrix) (p : position) : Z :=
  let '(k, i, j) := p in at3 (row (face m k) i) j.

Definition all_idx3 : list idx3 := [i0; i1; i2].
Definition all_faces : list face_idx := [f0; f1; f2; f3; f4; f5].

(** The 54 positions in the order of [flatten]. *)
Definition all_positions : list position :=
  k ← all_faces; i ← all_idx3; j ← all_idx3; [(k, i, j)].

Definition center (m : matrix) (k : face_idx) : Z := sticker m (k, i1, i1).

(** Number of stickers of colour [c]. *)
Definition indicator (c v : Z) : nat := if Z.eqb v c then 1%nat else 0%nat.

Definition count_colour (c : Z) (m : matrix) : nat :=
  foldr (fun v n => (indicator c v + n)%nat) 0%nat (np.flatten m).

(** ** Vocabulary and footprints used in the statements *)

(** The twelve elementary face-turn tokens and the fourteen supported ones. *)
Definition elementary_tokens : list string :=
  ["U"; "U'"; "D"; "D'"; "L"; "L'"; "R"; "R'"; "F"; "F'"; "B"; "B'"].

Definition supported_tokens : list string := elementary_tokens ++ ["M"; "M'"].

(** The prime counterpart of a token: [t'] for [t], and [t] for [t']. *)
Fixpoint prime (t : string) : string :=
  match t with
  | EmptyString => "'"
  | String c EmptyString => if Ascii.eqb c "'" then "" else String c "'"
  | String c t' => String c (prime t')
  end.

(** The region a face turn writes, read off its method: the face handed to
    the layer rotation, and the four row or column slices of the strip
    exchange. *)
Inductive slice : Set :=
| Row (k : face_idx) (i : idx3)
| Col (k : face_idx) (j : idx3).

Record footprint : Set :=
  { turning : face_idx; strips : list slice }.

Definition slice_face (s : slice) : face_idx :=
  match s with Row k _ => k | Col k _ => k end.

Definition slice_index (s : slice) : idx3 :=
  match s with Row _ i => i | Col _ j => j end.

Definition face_eqb (a b : face_idx) : bool := Z.eqb (face_num a) (face_num b).

Definition idx3_eqb (a b : idx3) : bool :=
  match a, b with
  | i0, i0 | i1, i1 | i2, i2 => true
  | _, _ => false
  end.

Definition on_slice (p : position) (s : slice) : bool :=
  let '(k, i, j) := p in
  match s with
  | Row k' i' => face_eqb k k' && idx3_eqb i i'
  | Col k' j' => face_eqb k k' && idx3_eqb j j'
  end.

Definition touched (fp : footprint) (p : position) : bool :=
  face_eqb p.1.1 (turning fp) || existsb (on_slice p) (strips fp).

(** The face across the cube: Up/Down, Right/Left, Front/Back. *)
Definition opposite (k : face_idx) : face_idx :=
  match k with
  | f0 => f3 | f3 => f0 | f1 => f4 | f4 => f1 | f2 => f5 | f5 => f2
  end.

Definition footprint_F : footprint :=
  {| turning := f2; strips := [Row f0 i2; Col f4 i2; Row f3 i0; Col f1 i0] |}.
Definition footprint_R : footprint :=
  {| turning := f1; strips := [Col f0 i2; Col f2 i2; Col f3 i2; Col f5 i0] |}.
Definition footprint_U : footprint :=
  {| turning := f0; strips := [Row f4 i0; Row f2 i0; Row f1 i0; Row f5 i0] |}.
Definition footprint_L : footprint :=
  {| turning := f4; strips := [Col f0 i0; Col f5 i2; Col f3 i0; Col f2 i0] |}.
Definition footprint_D : footprint :=
  {| turning := f3; strips := [Row f4 i2; Row f5 i2; Row f1 i2; Row f2 i2] |}.
Definition footprint_B : footprint :=
  {| turning := f5; strips := [Row f0 i0; Col f1 i2; Row f3 i2; Col f4 i0] |}.

Definition turn_footprints : list (string * footprint) :=
  [ ("F", footprint_F); ("F'", footprint_F);
    ("R", footprint_R); ("R'", footprint_R);
    ("U", footprint_U); ("U'", footprint_U);
    ("L", footprint_L); ("L'", footprint_L);
    ("D", footprint_D); ("D'", footprint_D);
    ("B", footprint_B); ("B'", footprint_B) ].

Definition untouched_positions (fp : footprint) : list position :=
  List.filter (fun p => negb (touched fp p)) all_positions.

(** A word, as [split] produces them: not empty and free of whitespace. *)
Fixpoint no_space (s : string) : Prop :=
  match s with
  | EmptyString => True
  | String c s' => isspace c = false ∧ no_space s'
  end.

Definition is_word (s : string) : Prop := s ≠ "" ∧ no_space s.

(** The character ["2"] occurs somewhere in [s]. *)
Definition has_two (s : string) : Prop :=
  ∃ pre post, s = pre +:+ String "2" post.

(** The entry one pass of the loop body appends for [move]. *)
Definition entry_for (move : string) : entry :=
  match move with
  | EmptyString => Single move
  | String c _ =>
      if str_in "2" move then Group [String c ""; String c ""] else Single move
  end.

(** The matrix after a sequence of moves on a new engine. *)
Definition after (moves : list string) : matrix :=
  (execute_sequence moves _get_pristine_state).1.

(** The fixed solved string, written out. *)
Definition solved_literal : string :=
  "UUUUUUUUURRRRRRRRRFFFFFFFFFDDDDDDDDDLLLLLLLLLBBBBBBBBB".

(** ** The move endpoint *)

(** The JSON object the move endpoint returns. *)
Record move_response : Set :=
  { move : string; cube_string : string }.

(** The [except ValueError] clause of the move endpoint; any other
    exception leaves the handler as it is. *)
Definition move_except {A} (e : exn) : result A :=
  match e with
  | ValueError msg => Raise (HTTPException 400 msg)
  | _ => Raise e
  end.

(** [process_manipulation], for a request body that is a JSON object whose
    "move" member is absent or null ([None]) or a string.  [not move] holds
    for [None] and for the empty string.  The call of the engine and the
    serialization are both inside the [try]. *)
Definition process_manipulation (payload_move : option string)
  : method move_response :=
  fun m =>
    match payload_move with
    | None | Some EmptyString =>
        (m, Raise (HTTPException 400 "Move not specified in payload."))
    | Some mv =>
        match execute_manipulation mv m with
        | (m', Raise e) => (m', move_except e)
        | (m', Ok _) =>
            match to_kociemba_string m' with
            | Raise e => (m', move_except e)
            | Ok s => (m', Ok {| move := mv; cube_string := s |})
            end
        end
    end.

(** ** Further vocabulary for the statements *)

(** Every entry of the matrix is a key of [FACE_MAP]. *)
Definition in_face_map (m : matrix) : Prop :=
  Forall (λ v : Z, (0 ≤ v ≤ 5)%Z) (np.flatten m).

(** The index at the other end of an axis: [2 - i]. *)
Definition rev3 (i : idx3) : idx3 :=
  match i with i0 => i2 | i1 => i1 | i2 => i0 end.

(** The letter [FACE_MAP] gives a face. *)
Definition face_letter (k : face_idx) : ascii :=
  match k with
  | f0 => "U" | f1 => "R" | f2 => "F" | f3 => "D" | f4 => "L" | f5 => "B"
  end%char.

(** [s.count(c)] for a character [c]. *)
Fixpoint count_char (c : ascii) (s : string) : nat :=
  match s with
  | EmptyString => 0
  | String d s' => ((if Ascii.eqb d c then 1 else 0) + count_char c s')%nat
  end.

(** A string made of whitespace only. *)
Fixpoint all_space (s : string) : Prop :=
  match s with
  | EmptyString => True
  | String c s' => isspace c = true ∧ all_space s'
  end.

(** [n] calls of the same move in a row. *)
Definition repeated (n : nat) (t : string) : list string := replicate n t.

(** * Properties *)

Ltac destruct_matrix m :=
  destruct m as [[[? ? ?] [? ? ?] [? ? ?]] [[? ? ?] [? ? ?] [? ? ?]]
                 [[? ? ?] [? ? ?] [? ? ?]] [[? ? ?] [? ? ?] [? ? ?]]
                 [[? ? ?] [? ? ?] [? ? ?]] [[? ? ?] [? ? ?] [? ? ?]]].

(** ** Dispatch *)

Lemma dispatcher_keys_nodup : NoDup (_move_dispatcher_items.*1).
Proof. compute_done. Qed.

Lemma dispatcher_keys t : t ∈ _move_dispatcher_items.*1 ↔ t ∈ supported_tokens.
Proof.
  unfold supported_tokens, elementary_tokens. cbn [fmap list_fmap _move_dispatcher_items fst app].
  rewrite !elem_of_cons, !elem_of_nil. tauto.
Qed.

Lemma execute_known t f m :
  (t, f) ∈ _move_dispatcher_items → execute_manipulation t m = (f m, Ok tt).
Proof.
  intros Hin. unfold execute_manipulation, _move_dispatcher.
  rewrite (elem_of_list_to_map_1 _ _ _ dispatcher_keys_nodup Hin). reflexivity.
Qed.

Lemma execute_unknown t m :
  t ∉ supported_tokens →
  execute_manipulation t m =
    (m, Raise (ValueError ("Unknown move notation: " +:+ t))).
Proof.
  intros Hout. unfold execute_manipulation, _move_dispatcher.
  rewrite (not_elem_of_list_to_map_1 _move_dispatcher_items t); [reflexivity|].
  by rewrite dispatcher_keys.
Qed.

Lemma supported_has_entry t :
  t ∈ supported_tokens → ∃ f, (t, f) ∈ _move_dispatcher_items.
Proof.
  rewrite <- dispatcher_keys. intros Hin.
  apply list_elem_of_fmap in Hin as [[t' f] [-> Hin]]. by exists f.
Qed.

(** C5. Dispatching a token outside the fourteen-token vocabulary raises the
    unknown-notation error, whose message carries the token, and leaves the
    matrix (all 54 stickers) as it was; dispatching a token of the vocabulary
    succeeds and the matrix after the call is the token's own transformation
    of the matrix before it, applied once: the clockwise turn of the face
    for a face letter, the counter-clockwise turn for a primed one, and for
    M (for M') the turn R' then L then the positive reorientation (R then L'
    then the negative reorientation). *)
Theorem dispatch_contract (move_notation : string) (m : matrix) :
  (move_notation ∉ supported_tokens →
     execute_manipulation move_notation m =
       (m, Raise (ValueError ("Unknown move notation: " +:+ move_notation)))
     ∧ ∀ p, sticker (execute_manipulation move_notation m).1 p = sticker m p)
  ∧ (move_notation ∈ supported_tokens →
     ∃ f, _move_dispatcher !! move_notation = Some f
          ∧ execute_manipulation move_notation m = (f m, Ok tt))
  ∧ execute_manipulation "F" m = (_turn_F_cw m, Ok tt)
  ∧ execute_manipulation "F'" m = (_turn_F_ccw m, Ok tt)
  ∧ execute_manipulation "R" m = (_turn_R_cw m, Ok tt)
  ∧ execute_manipulation "R'" m = (_turn_R_ccw m, Ok tt)
  ∧ execute_manipulation "U" m = (_turn_U_cw m, Ok tt)
  ∧ execute_manipulation "U'" m = (_turn_U_ccw m, Ok tt)
  ∧ execute_manipulation "L" m = (_turn_L_cw m, Ok tt)
  ∧ execute_manipulation "L'" m = (_turn_L_ccw m, Ok tt)
  ∧ execute_manipulation "D" m = (_turn_D_cw m, Ok tt)
  ∧ execute_manipulation "D'" m = (_turn_D_ccw m, Ok tt)
  ∧ execute_manipulation "B" m = (_turn_B_cw m, Ok tt)
  ∧ execute_manipulation "B'" m = (_turn_B_ccw m, Ok tt)
  ∧ execute_manipulation "M" m
    = (_orient_x_pos (_turn_L_cw (_turn_R_ccw m)), Ok tt)
  ∧ execute_manipulation "M'" m
    = (_orient_x_neg (_turn_L_ccw (_turn_R_cw m)), Ok tt).
Proof.
  split; [|split].
  - intros Hout. rewrite (execute_unknown _ _ Hout). by split.
  - intros Hin. destruct (supported_has_entry _ Hin) as [f Hf].
    exists f. split; [|by apply execute_known].
    by apply (elem_of_list_to_map_1 _ _ _ dispatcher_keys_nodup).
  - assert (Hrun : ∀ t f, (t, f) ∈ _move_dispatcher_items →
                          execute_manipulation t m = (f m, Ok tt))
      by (intros t f; apply execute_known).
    unfold _move_dispatcher_items in Hrun.
    repeat match goal with |- _ ∧ _ => split end.
    + apply (Hrun "F" _turn_F_cw). repeat constructor.
    + apply (Hrun "F'" _turn_F_ccw). repeat constructor.
    + apply (Hrun "R" _turn_R_cw). repeat constructor.
    + apply (Hrun "R'" _turn_R_ccw). repeat constructor.
    + apply (Hrun "U" _turn_U_cw). repeat constructor.
    + apply (Hrun "U'" _turn_U_ccw). repeat constructor.
    + apply (Hrun "L" _turn_L_cw). repeat constructor.
    + apply (Hrun "L'" _turn_L_ccw). repeat constructor.
    + apply (Hrun "D" _turn_D_cw). repeat constructor.
    + apply (Hrun "D'" _turn_D_ccw). repeat constructor.
    + apply (Hrun "B" _turn_B_cw). repeat constructor.
    + apply (Hrun "B'" _turn_B_ccw). repeat constructor.
    + apply (Hrun "M" _move_M). repeat constructor.
    + apply (Hrun "M'" _move_M'). repeat constructor.
Qed.

Lemma dispatch_contract_witness :
  (("X" ∉ supported_tokens)
   ∧ execute_manipulation "X" _get_pristine_state =
       (_get_pristine_state, Raise (ValueError "Unknown move notation: X")))
  ∧ ("F'" ∈ supported_tokens
     ∧ ∃ f, _move_dispatcher !! "F'" = Some f
            ∧ execute_manipulation "F'" _get_pristine_state =
                (f _get_pristine_state, Ok tt))
  ∧ execute_manipulation "F" (after ["U"]) = (_turn_F_cw (after ["U"]), Ok tt).
Proof.
  assert (Hout : "X" ∉ supported_tokens) by compute_done.
  assert (Hin : "F'" ∈ supported_tokens) by compute_done.
  split; [split; [exact Hout|]|split; [split; [exact Hin|]|]].
  - exact (proj1 (proj1 (dispatch_contract "X" _get_pristine_state) Hout)).
  - exact (proj1 (proj2 (dispatch_contract "F'" _get_pristine_state)) Hin).
  - exact (proj1 (proj2 (proj2 (dispatch_contract "F" (after ["U"]))))).
Defined.

(** ** Serialization *)


Lemma FACE_MAP_letter v s :
  FACE_MAP !! v = Some s → ∃ c, s = String c "".
Proof.
  unfold FACE_MAP. intros H. apply elem_of_list_to_map_2 in H.
  cbn in H. rewrite !elem_of_cons, elem_of_nil in H.
  destruct H as [H|[H|[H|[H|[H|[H|[]]]]]]]; inversion H; eauto.
Qed.

(** What the comprehension returns: one letter of [FACE_MAP] per entry. *)
Lemma face_letters_Ok flat letters :
  face_letters flat = Ok letters →
  Forall2 (λ v s, FACE_MAP !! v = Some s) flat letters.
Proof.
  revert letters. induction flat as [|v flat IH]; intros letters; cbn [face_letters].
  - intros [= <-]. constructor.
  - destruct (FACE_MAP !! v) as [s|] eqn:Hv; [|discriminate].
    destruct (face_letters flat) as [ls|]; [|discriminate].
    intros [= <-]. constructor; auto.
Qed.


Lemma join_letters_length (vs : list Z) (letters : list string) :
  Forall2 (λ v s, FACE_MAP !! v = Some s) vs letters →
  String.length (str_join_empty letters) = length vs.
Proof.
  induction 1 as [|v s vs' ls Hv _ IH]; [reflexivity|].
  destruct (FACE_MAP_letter _ _ Hv) as [c ->].
  replace (str_join_empty (String c "" :: ls)) with (String c (str_join_empty ls))
    by (unfold str_join_empty; destruct ls; reflexivity).
  cbn. by rewrite IH.
Qed.


(** ** The solve endpoint *)

(** C8. When the matrix serializes to the solved-state constant, the solve
    endpoint answers with the empty solution string and the empty move list,
    and it finishes without calling the oracle: whatever the oracle is, the
    list of calls made to it is empty. *)
Theorem solve_when_solved (m : matrix) :
  to_kociemba_string m = Ok SOLVED_KOCIEMBA_STRING →
  discover_solution_path m =
    Finish (Ok {| solutionString := ""; parsedMoves := [] |})
  ∧ ∀ solve, run_with solve (discover_solution_path m) =
       (Ok {| solutionString := ""; parsedMoves := [] |}, []).
Proof.
  intros Hs. unfold discover_solution_path. rewrite Hs, String.eqb_refl.
  by split.
Qed.

Lemma solve_when_solved_witness :
  to_kociemba_string (restore_pristine_state _get_pristine_state).1
    = Ok SOLVED_KOCIEMBA_STRING
  ∧ discover_solution_path (restore_pristine_state _get_pristine_state).1 =
      Finish (Ok {| solutionString := ""; parsedMoves := [] |}).
Proof.
  assert (H : to_kociemba_string (restore_pristine_state _get_pristine_state).1
              = Ok SOLVED_KOCIEMBA_STRING) by (vm_compute; reflexivity).
  split; [exact H|].
  exact (proj1 (solve_when_solved _ H)).
Defined.

(** ** The moves as transformations of the matrix *)

Lemma execute_cases t m :
  t ∈ supported_tokens →
  ∃ f, (t, f) ∈ _move_dispatcher_items ∧ execute_manipulation t m = (f m, Ok tt).
Proof.
  intros Hin. destruct (supported_has_entry _ Hin) as [f Hf].
  exists f. split; [done|]. by apply execute_known.
Qed.

(** Case analysis on an entry of the dispatch table. *)
Ltac table_cases H :=
  unfold _move_dispatcher_items in H;
  rewrite !elem_of_cons, elem_of_nil in H;
  repeat (destruct H as [H|H]); [simplify_eq.. | destruct H].

Lemma elementary_supported t : t ∈ elementary_tokens → t ∈ supported_tokens.
Proof. intros H. apply elem_of_app. by left. Qed.

(** Every entry of the table permutes the stickers: it keeps the number of
    stickers of each colour. *)
Lemma table_keeps_count t f c m :
  (t, f) ∈ _move_dispatcher_items → count_colour c (f m) = count_colour c m.
Proof.
  intros H. destruct_matrix m. table_cases H;
    cbv -[indicator Nat.add]; lia.
Qed.

(** The face turns leave the six centers alone. *)
Lemma turn_keeps_center t f k m :
  (t, f) ∈ _move_dispatcher_items → t ∈ elementary_tokens →
  center (f m) k = center m k.
Proof.
  intros H Hel. destruct_matrix m. table_cases H;
    try (destruct k; reflexivity); exfalso; revert Hel; compute_done.
Qed.

Lemma sequence_keeps_count moves : ∀ m,
  Forall (λ t, t ∈ supported_tokens) moves →
  ∃ m', execute_sequence moves m = (m', Ok tt)
        ∧ ∀ c, count_colour c m' = count_colour c m.
Proof.
  induction moves as [|t moves IH]; intros m Hall.
  - by exists m.
  - inversion_clear Hall as [|? ? Ht Hrest].
    destruct (execute_cases t m Ht) as (f & Hf & Hrun).
    destruct (IH (f m) Hrest) as (m' & Hseq & Hcount).
    exists m'. split.
    + cbn [execute_sequence]. unfold bind. by rewrite Hrun.
    + intros c. rewrite Hcount. by apply (table_keeps_count t).
Qed.

Lemma sequence_keeps_centers moves : ∀ m,
  Forall (λ t, t ∈ elementary_tokens) moves →
  ∃ m', execute_sequence moves m = (m', Ok tt)
        ∧ ∀ k, center m' k = center m k.
Proof.
  induction moves as [|t moves IH]; intros m Hall.
  - by exists m.
  - inversion_clear Hall as [|? ? Ht Hrest].
    destruct (execute_cases t m (elementary_supported _ Ht)) as (f & Hf & Hrun).
    destruct (IH (f m) Hrest) as (m' & Hseq & Hcen).
    exists m'. split.
    + cbn [execute_sequence]. unfold bind. by rewrite Hrun.
    + intros k. rewrite Hcen. by apply (turn_keeps_center t).
Qed.

(** The ten tokens whose prime counterpart undoes them on every matrix. *)
Lemma inverse_law_UDLFB t m :
  t ∈ ["U"; "U'"; "D"; "D'"; "L"; "L'"; "F"; "F'"; "B"; "B'"] →
  execute_sequence [t; prime t] m = (m, Ok tt).
Proof.
  rewrite !elem_of_cons, elem_of_nil. destruct_matrix m.
  intros H. repeat (destruct H as [H|H]); [subst t; by vm_compute..|destruct H].
Qed.

(** The thirteen tokens that have order four on every matrix. *)
Lemma order_four_all_but_R_prime t m :
  t ∈ supported_tokens → t ≠ "R'" →
  execute_sequence [t; t; t; t] m = (m, Ok tt).
Proof.
  unfold supported_tokens, elementary_tokens. cbn [app].
  rewrite !elem_of_cons, elem_of_nil. destruct_matrix m.
  intros H Hne. repeat (destruct H as [H|H]);
    [subst t; first [by vm_compute | by destruct Hne]..|destruct H].
Qed.

(** ** Laws of the moves *)

(** C1. The inverse law does not hold for R, R', M and M': on the matrix
    reached from the solved one by the single move F, R followed by R' leaves
    the right column of the Up face reversed; on the matrix reached by the
    single move U, R' followed by R, M followed by M' and M' followed by M
    each end in a different matrix than they started from. *)
Theorem inverse_law_fails_R_M :
  sticker (after ["F"]) (f0, i0, i2) = 0
  ∧ execute_sequence ["R"; prime "R"] (after ["F"]) = (after ["F"; "R"; "R'"], Ok tt)
  ∧ sticker (after ["F"; "R"; "R'"]) (f0, i0, i2) = 4
  ∧ (execute_sequence ["R'"; prime "R'"] (after ["U"])).1 ≠ after ["U"]
  ∧ (execute_sequence ["M"; prime "M"] (after ["U"])).1 ≠ after ["U"]
  ∧ (execute_sequence ["M'"; prime "M'"] (after ["U"])).1 ≠ after ["U"].
Proof.
  repeat split; try (by vm_compute); vm_compute; intros H; discriminate H.
Qed.

(** C2. The order-four law does not hold for R': on the matrix reached from
    the solved one by the single move F, four applications of R' succeed and
    end in a matrix whose Up face has its right column reversed. *)
Theorem order_four_fails_R_prime :
  sticker (after ["F"]) (f0, i0, i2) = 0
  ∧ execute_sequence ["R'"; "R'"; "R'"; "R'"] (after ["F"])
      = (after ["F"; "R'"; "R'"; "R'"; "R'"], Ok tt)
  ∧ sticker (after ["F"; "R'"; "R'"; "R'"; "R'"]) (f0, i0, i2) = 4
  ∧ after ["F"; "R'"; "R'"; "R'"; "R'"] ≠ after ["F"].
Proof.
  repeat split; try (by vm_compute); vm_compute; intros H; discriminate H.
Qed.

(** ** Invariants of move sequences *)

(** The claim of C3 fails for the slice move: after the single move M on a
    new engine the center of the Up face holds the colour of Front. *)
Lemma center_moves_under_M :
  Forall (λ t, t ∈ supported_tokens) ["M"]
  ∧ execute_sequence ["M"] _get_pristine_state = (after ["M"], Ok tt)
  ∧ center (after ["M"]) f0 = 2
  ∧ face_num f0 = 0.
Proof.
  split; [|by vm_compute]. constructor; [compute_done|constructor].
Qed.

(** C3, amended. After every sequence of the twelve elementary face turns on
    a new engine, the center of each of the six faces holds the face's own
    colour. *)
Theorem centers_fixed_by_face_turns (moves : list string) :
  Forall (λ t, t ∈ elementary_tokens) moves →
  ∃ m', execute_sequence moves _get_pristine_state = (m', Ok tt)
        ∧ ∀ k, center m' k = face_num k.
Proof.
  intros Hall.
  destruct (sequence_keeps_centers moves _get_pristine_state Hall) as (m' & Hrun & Hcen).
  exists m'. split; [done|]. intros k. rewrite Hcen. by destruct k.
Qed.

Lemma centers_fixed_by_face_turns_witness :
  Forall (λ t, t ∈ elementary_tokens) ["F"; "R'"; "U"; "B"; "L'"; "D"]
  ∧ ∃ m', execute_sequence ["F"; "R'"; "U"; "B"; "L'"; "D"] _get_pristine_state
            = (m', Ok tt)
          ∧ ∀ k, center m' k = face_num k.
Proof.
  assert (H : Forall (λ t, t ∈ elementary_tokens) ["F"; "R'"; "U"; "B"; "L'"; "D"])
    by (repeat (constructor; [compute_done|]); constructor).
  split; [exact H|]. exact (centers_fixed_by_face_turns _ H).
Defined.

(** C4. After every sequence of supported moves on a new engine, every
    colour value occurs as often among the 54 stickers as it does in the
    solved matrix: each of the six colours exactly nine times, and no other
    value at all. *)
Theorem colours_conserved (moves : list string) :
  Forall (λ t, t ∈ supported_tokens) moves →
  ∃ m', execute_sequence moves _get_pristine_state = (m', Ok tt)
        ∧ length (np.flatten m') = 54%nat
        ∧ (∀ c, count_colour c m' = count_colour c _get_pristine_state)
        ∧ (∀ k, count_colour (face_num k) m' = 9%nat)
        ∧ (∀ c, (∀ k, c ≠ face_num k) → count_colour c m' = 0%nat).
Proof.
  intros Hall.
  destruct (sequence_keeps_count moves _get_pristine_state Hall) as (m' & Hrun & Hcount).
  exists m'. split; [done|]. split; [by destruct_matrix m'|].
  split; [done|]. split.
  - intros k. rewrite Hcount. by destruct k.
  - intros c Hc. rewrite Hcount.
    pose proof (Hc f0) as H0. pose proof (Hc f1) as H1. pose proof (Hc f2) as H2.
    pose proof (Hc f3) as H3. pose proof (Hc f4) as H4. pose proof (Hc f5) as H5.
    cbn in H0, H1, H2, H3, H4, H5.
    assert (Hi : ∀ v, v ≠ c → indicator c v = 0%nat).
    { intros v Hv. unfold indicator. destruct (Z.eqb_spec v c); [done|reflexivity]. }
    unfold count_colour. cbn -[indicator].
    rewrite !Hi by (intros E; congruence). reflexivity.
Qed.

Lemma colours_conserved_witness :
  Forall (λ t, t ∈ supported_tokens) ["M"; "R'"; "U"; "M'"; "F"]
  ∧ ∃ m', execute_sequence ["M"; "R'"; "U"; "M'"; "F"] _get_pristine_state
            = (m', Ok tt)
          ∧ ∀ k, count_colour (face_num k) m' = 9%nat.
Proof.
  assert (H : Forall (λ t, t ∈ supported_tokens) ["M"; "R'"; "U"; "M'"; "F"])
    by (repeat (constructor; [compute_done|]); constructor).
  split; [exact H|].
  destruct (colours_conserved _ H) as (m' & Hrun & _ & _ & Hnine & _).
  exists m'. by split.
Defined.

(** ** Frame of a face turn *)

Lemma footprint_shape t fp :
  (t, fp) ∈ turn_footprints →
  length (strips fp) = 4%nat
  ∧ NoDup (slice_face <$> strips fp)
  ∧ Forall (λ s, slice_face s ≠ turning fp ∧ slice_face s ≠ opposite (turning fp)
                 ∧ slice_index s ≠ i1)
           (strips fp)
  ∧ length (List.filter (touched fp) all_positions) = 21%nat
  ∧ length (untouched_positions fp) = 33%nat
  ∧ ∀ i j, touched fp (opposite (turning fp), i, j) = false.
Proof.
  unfold turn_footprints. rewrite !elem_of_cons, elem_of_nil. intros H.
  repeat (destruct H as [H|H]); [simplify_eq..|destruct H];
    (split; [reflexivity|]; split; [compute_done|]; split;
     [repeat (constructor; [repeat split; discriminate|]); constructor|];
     split; [reflexivity|]; split; [reflexivity|];
     intros [] []; reflexivity).
Qed.

Lemma footprint_frame t fp f m p :
  (t, fp) ∈ turn_footprints → (t, f) ∈ _move_dispatcher_items →
  touched fp p = false → sticker (f m) p = sticker m p.
Proof.
  unfold turn_footprints. rewrite !elem_of_cons, elem_of_nil. intros Hfp Hf.
  destruct_matrix m. destruct p as [[k i] j].
  repeat (destruct Hfp as [Hfp|Hfp]); [simplify_eq..|destruct Hfp];
    table_cases Hf;
    destruct k, i, j; intros Ht; first [reflexivity | discriminate Ht].
Qed.

(** C9. Each of the twelve elementary face turns has a footprint made of the
    turning face and one three-sticker border row or column on each of the
    four adjacent faces, 21 positions in all; the turn succeeds on every matrix
    and every position outside the footprint, 33 in all and among them the
    whole opposite face, holds after the turn the value it held before. *)
Theorem face_turn_frame (t : string) (m : matrix) :
  t ∈ elementary_tokens →
  ∃ fp,
    (t, fp) ∈ turn_footprints
    ∧ length (strips fp) = 4%nat
    ∧ NoDup (slice_face <$> strips fp)
    ∧ Forall (λ s, slice_face s ≠ turning fp ∧ slice_face s ≠ opposite (turning fp)
                   ∧ slice_index s ≠ i1)
             (strips fp)
    ∧ length (List.filter (touched fp) all_positions) = 21%nat
    ∧ length (untouched_positions fp) = 33%nat
    ∧ (∀ i j, touched fp (opposite (turning fp), i, j) = false)
    ∧ ∃ m', execute_manipulation t m = (m', Ok tt)
            ∧ ∀ p, touched fp p = false → sticker m' p = sticker m p.
Proof.
  intros Hel.
  assert (Hfp : ∃ fp, (t, fp) ∈ turn_footprints).
  { revert Hel. unfold elementary_tokens, turn_footprints.
    rewrite !elem_of_cons, elem_of_nil. intros H.
    repeat (destruct H as [H|H]); [subst t; eexists; repeat first [by left | right]..|destruct H]. }
  destruct Hfp as [fp Hfp]. exists fp. split; [done|].
  destruct (footprint_shape t fp Hfp) as (H4 & Hnd & Hadj & H21 & H33 & Hopp).
  repeat (split; [done|]).
  destruct (execute_cases t m (elementary_supported _ Hel)) as (f & Hf & Hrun).
  exists (f m). split; [done|]. intros p Hp.
  by apply (footprint_frame t fp).
Qed.

Lemma face_turn_frame_witness :
  "B'" ∈ elementary_tokens
  ∧ ∃ m', execute_manipulation "B'" (after ["F"; "U"]) = (m', Ok tt)
          ∧ ∀ p, touched footprint_B p = false →
                 sticker m' p = sticker (after ["F"; "U"]) p.
Proof.
  assert (H : "B'" ∈ elementary_tokens) by compute_done.
  split; [exact H|].
  destruct (face_turn_frame "B'" (after ["F"; "U"]) H)
    as (fp & Hfp & _ & _ & _ & _ & _ & _ & m' & Hrun & Hframe).
  assert (fp = footprint_B) as ->.
  { revert Hfp. unfold turn_footprints. rewrite !elem_of_cons, elem_of_nil.
    intros Hfp. repeat (destruct Hfp as [Hfp|Hfp]); [simplify_eq..|destruct Hfp].
    reflexivity. }
  exists m'. by split.
Defined.

(** ** The tokenizer *)

Lemma str_app_nil_l s : "" +:+ s = s.
Proof. reflexivity. Qed.

Lemma str_app_cons c s t : String c s +:+ t = String c (s +:+ t).
Proof. reflexivity. Qed.

Lemma str_app_nil_r s : s +:+ "" = s.
Proof.
  induction s as [|c s IH]; [reflexivity|]. by rewrite str_app_cons, IH.
Qed.

Lemma str_app_assoc s t u : (s +:+ t) +:+ u = s +:+ (t +:+ u).
Proof.
  induction s as [|c s IH]; [reflexivity|]. by rewrite !str_app_cons, IH.
Qed.

Lemma str_app_not_empty s c t : s +:+ String c t ≠ "".
Proof. by destruct s. Qed.

(** Reading a word moves it into the accumulator. *)
Lemma split_from_word w : ∀ cur rest,
  no_space w → split_from cur (w +:+ rest) = split_from (cur +:+ w) rest.
Proof.
  induction w as [|c w IH]; intros cur rest Hw.
  - by rewrite str_app_nil_l, str_app_nil_r.
  - destruct Hw as [Hc Hw]. rewrite str_app_cons. cbn [split_from]. rewrite Hc.
    rewrite IH by done. by rewrite str_app_assoc.
Qed.

Lemma split_from_flush w rest :
  w ≠ "" → split_from w (String " " rest) = w :: split_from "" rest.
Proof. intros Hw. cbn. by destruct w. Qed.

(** Splitting words joined by single spaces gives the words back. *)
Lemma str_split_join ws :
  Forall is_word ws → str_split (String.concat " " ws) = ws.
Proof.
  unfold str_split. induction 1 as [|w ws [Hne Hw] Hws IH]; [reflexivity|].
  cbn [String.concat]. destruct ws as [|w' ws].
  - rewrite <- (str_app_nil_r w) at 1. rewrite split_from_word by done.
    rewrite str_app_nil_l. cbn [split_from]. by destruct w.
  - rewrite split_from_word by done. rewrite str_app_cons, !str_app_nil_l.
    rewrite split_from_flush by done. by rewrite IH.
Qed.

(** Every word [split] produces is a word. *)
Lemma split_from_words s : ∀ cur,
  no_space cur → Forall is_word (split_from cur s).
Proof.
  induction s as [|c s IH]; intros cur Hcur; cbn [split_from].
  - destruct cur; constructor; [|constructor]. by split.
  - destruct (isspace c) eqn:Hc.
    + destruct cur.
      * by apply IH.
      * constructor; [by split|]. by apply IH.
    + apply IH. clear IH. induction cur as [|d cur IHc]; cbn.
      * by split.
      * destruct Hcur. split; [done|]. by apply IHc.
Qed.

Lemma str_in_cons sub c s :
  str_in sub (String c s) =
    if String.prefix sub (String c s) then true else str_in sub s.
Proof. reflexivity. Qed.

Lemma prefix_two c s :
  String.prefix "2" (String c s) = if ascii_dec "2" c then true else false.
Proof.
  change (String.prefix "2" (String c s))
    with (match ascii_dec "2" c with
          | left _ => String.prefix "" s
          | right _ => false
          end).
  destruct (ascii_dec "2" c); [by destruct s|reflexivity].
Qed.

Lemma str_in_two_true pre post : str_in "2" (pre +:+ String "2" post) = true.
Proof.
  induction pre as [|c pre IH].
  - rewrite str_app_nil_l, str_in_cons, prefix_two.
    by destruct (ascii_dec "2" "2").
  - rewrite str_app_cons, str_in_cons, IH.
    by destruct (String.prefix "2" (String c (pre +:+ String "2" post))).
Qed.

Lemma str_in_two_has s : str_in "2" s = true → has_two s.
Proof.
  induction s as [|c s IH]; [discriminate|].
  rewrite str_in_cons. destruct (String.prefix "2" (String c s)) eqn:Hp.
  - intros _. rewrite prefix_two in Hp.
    destruct (ascii_dec "2" c) as [<-|]; [|discriminate].
    by exists "", s.
  - intros H. destruct (IH H) as (pre & post & ->).
    by exists (String c pre), post.
Qed.

Lemma str_in_two_false s : ¬ has_two s → str_in "2" s = false.
Proof.
  intros H. destruct (str_in "2" s) eqn:E; [|reflexivity].
  destruct H. by apply str_in_two_has.
Qed.

(** The loop never raises: it appends one entry per word, in order. *)
Lemma tokenize_loop_map moves : ∀ tokens,
  tokenize_loop moves tokens = Ok (tokens ++ (entry_for <$> moves))%list.
Proof.
  induction moves as [|move moves IH]; intros tokens; cbn [tokenize_loop fmap list_fmap].
  - by rewrite app_nil_r.
  - destruct (str_in "2" move) eqn:H2.
    + destruct move as [|c move]; [discriminate|].
      cbn [str_first]. rewrite IH, <- app_assoc. cbn [entry_for app].
      by rewrite H2.
    + rewrite IH, <- app_assoc. cbn [app]. unfold entry_for at 2.
      rewrite H2. by destruct move.
Qed.

Lemma tokenize_map s :
  _tokenize_solution_string s = Ok (entry_for <$> str_split s).
Proof. unfold _tokenize_solution_string. by rewrite tokenize_loop_map. Qed.

Lemma entry_for_two c rest :
  has_two (String c rest) →
  entry_for (String c rest) = Group [String c ""; String c ""].
Proof.
  intros (pre & post & E). unfold entry_for. rewrite E at 1.
  by rewrite str_in_two_true.
Qed.

Lemma entry_for_plain move : ¬ has_two move → entry_for move = Single move.
Proof.
  intros H. unfold entry_for. destruct move; [reflexivity|].
  by rewrite (str_in_two_false _ H).
Qed.

Lemma tokenize_entries s :
  ∃ entries,
    _tokenize_solution_string s = Ok entries
    ∧ Forall2 (λ move e, is_word move ∧ e = entry_for move) (str_split s) entries.
Proof.
  exists (entry_for <$> str_split s). split; [apply tokenize_map|].
  apply Forall2_fmap_r, Forall_Forall2_diag.
  eapply Forall_impl; [by apply (split_from_words s "")|]. by intros move Hw.
Qed.

(** C7. The solver output "R2 U F' D2" is tokenized to [[R,R], U, F',
    [D,D]].  In general the tokenizer succeeds on every string and returns
    one entry per whitespace-separated word, in order: a word that ends in
    the suffix "2" gives a pair of two identical one-letter tokens, the
    word's leading base-move letter, and a word without any "2" (a plain or
    primed token) is passed through unchanged.  Words joined by single spaces
    are split back into the same words. *)
Theorem tokenize_doubles :
  _tokenize_solution_string "R2 U F' D2"
    = Ok [Group ["R"; "R"]; Single "U"; Single "F'"; Group ["D"; "D"]]
  ∧ (∀ s, ∃ entries,
       _tokenize_solution_string s = Ok entries
       ∧ Forall2 (λ move e,
                    is_word move
                    ∧ (∀ b mid, move = String b (mid +:+ "2") →
                                e = Group [String b ""; String b ""])
                    ∧ (¬ has_two move → e = Single move))
                 (str_split s) entries)
  ∧ (∀ ws, Forall is_word ws → str_split (String.concat " " ws) = ws).
Proof.
  split; [by vm_compute|]. split; [|apply str_split_join].
  intros s. destruct (tokenize_entries s) as (entries & Hrun & Hall).
  exists entries. split; [done|].
  eapply Forall2_impl; [exact Hall|]. cbn beta.
  intros move e [Hw ->]. split; [done|]. split.
  - intros b mid ->. apply entry_for_two. by exists (String b mid), "".
  - apply entry_for_plain.
Qed.

Lemma tokenize_doubles_witness :
  Forall is_word ["L2"; "B'"; "U"]
  ∧ str_split (String.concat " " ["L2"; "B'"; "U"]) = ["L2"; "B'"; "U"]
  ∧ ∃ entries, _tokenize_solution_string "L2 B' U" = Ok entries.
Proof.
  assert (H : Forall is_word ["L2"; "B'"; "U"]).
  { repeat (constructor; [split; [discriminate|by vm_compute]|]). constructor. }
  split; [exact H|]. split.
  - exact (proj2 (proj2 tokenize_doubles) _ H).
  - destruct (proj1 (proj2 tokenize_doubles) "L2 B' U") as (entries & Hrun & _).
    by exists entries.
Defined.

(** C10. A word with the character "2" at any position, not only at its
    end, gives the pair made of its first character alone; whatever follows
    the first character, a prime included, is dropped: "F'2" gives [F, F]
    and "2U" gives ["2", "2"]. *)
Theorem tokenize_two_anywhere :
  _tokenize_solution_string "F'2" = Ok [Group ["F"; "F"]]
  ∧ _tokenize_solution_string "2U" = Ok [Group ["2"; "2"]]
  ∧ ∀ s, ∃ entries,
      _tokenize_solution_string s = Ok entries
      ∧ Forall2 (λ move e,
                   is_word move
                   ∧ (has_two move →
                      ∃ c rest, move = String c rest
                                ∧ e = Group [String c ""; String c ""]))
                (str_split s) entries.
Proof.
  split; [by vm_compute|]. split; [by vm_compute|].
  intros s. destruct (tokenize_entries s) as (entries & Hrun & Hall).
  exists entries. split; [done|].
  eapply Forall2_impl; [exact Hall|]. cbn beta.
  intros move e [Hw ->]. split; [done|]. intros H2.
  destruct move as [|c rest]; [by destruct Hw|].
  exists c, rest. split; [done|]. by apply entry_for_two.
Qed.

Lemma tokenize_two_anywhere_witness :
  has_two "R2'"
  ∧ ∃ entries, _tokenize_solution_string "U R2' F" = Ok entries
               ∧ entries !! 1%nat = Some (Group ["R"; "R"]).
Proof.
  assert (H : has_two "R2'") by (by exists "R", "'").
  split; [exact H|].
  destruct (proj2 (proj2 tokenize_two_anywhere) "U R2' F")
    as (entries & Hrun & Hall).
  exists entries. split; [exact Hrun|].
  change (str_split "U R2' F") with ["U"; "R2'"; "F"] in Hall.
  inversion Hall as [|? ? ? ? _ Hrest]; subst.
  inversion Hrest as [|? ? ? ? [_ Hmid] _]; subst.
  destruct (Hmid H) as (c & rest & [= <- <-] & ->). reflexivity.
Defined.

(** * Further properties of the engine *)

(** ** Laws the moves do satisfy *)

Lemma inverse_law_UDLFB_witness :
  "B'" ∈ ["U"; "U'"; "D"; "D'"; "L"; "L'"; "F"; "F'"; "B"; "B'"]
  ∧ execute_sequence ["B'"; "B"] (after ["F"; "U"]) = (after ["F"; "U"], Ok tt).
Proof.
  assert (H : "B'" ∈ ["U"; "U'"; "D"; "D'"; "L"; "L'"; "F"; "F'"; "B"; "B'"])
    by compute_done.
  split; [exact H|]. exact (inverse_law_UDLFB "B'" _ H).
Defined.

Lemma order_four_all_but_R_prime_witness :
  "M" ∈ supported_tokens ∧ "M" ≠ "R'"
  ∧ execute_sequence ["M"; "M"; "M"; "M"] (after ["F"; "U"]) = (after ["F"; "U"], Ok tt).
Proof.
  assert (H : "M" ∈ supported_tokens) by compute_done.
  assert (Hne : "M" ≠ "R'") by discriminate.
  split; [exact H|]. split; [exact Hne|].
  exact (order_four_all_but_R_prime "M" _ H Hne).
Defined.

(** R' applied eight times in a row leaves every matrix as it was, and four
    applications reverse the right column of Up, the right column of Front,
    the right column of Down and the left column of Back, and nothing else. *)
Theorem R_prime_order_eight (m : matrix) :
  execute_sequence (repeated 8 "R'") m = (m, Ok tt)
  ∧ ∃ m', execute_sequence (repeated 4 "R'") m = (m', Ok tt)
          ∧ col (face m' f0) i2 = np.flip (col (face m f0) i2)
          ∧ col (face m' f2) i2 = np.flip (col (face m f2) i2)
          ∧ col (face m' f3) i2 = np.flip (col (face m f3) i2)
          ∧ col (face m' f5) i0 = np.flip (col (face m f5) i0)
          ∧ ∀ p, existsb (on_slice p) (strips footprint_R) = false →
                 sticker m' p = sticker m p.
Proof.
  destruct_matrix m. split; [by vm_compute|].
  eexists. split; [by vm_compute|]. repeat (split; [reflexivity|]).
  intros [[k i] j]. destruct k, i, j; intros H; first [reflexivity|discriminate H].
Qed.

(** For each of U, U', D, D', L, L', F, F', B and B', three applications in a row do what one
    application of the prime counterpart does. *)
Theorem three_turns_are_prime (t : string) (m : matrix) :
  t ∈ ["U"; "U'"; "D"; "D'"; "L"; "L'"; "F"; "F'"; "B"; "B'"] →
  execute_sequence (repeated 3 t) m = execute_manipulation (prime t) m.
Proof.
  rewrite !elem_of_cons, elem_of_nil. destruct_matrix m.
  intros H. repeat (destruct H as [H|H]); [subst t; by vm_compute..|destruct H].
Qed.

Lemma three_turns_are_prime_witness :
  "F" ∈ ["U"; "U'"; "D"; "D'"; "L"; "L'"; "F"; "F'"; "B"; "B'"]
  ∧ execute_sequence (repeated 3 "F") (after ["U"]) = execute_manipulation "F'" (after ["U"]).
Proof.
  assert (H : "F" ∈ ["U"; "U'"; "D"; "D'"; "L"; "L'"; "F"; "F'"; "B"; "B'"])
    by compute_done.
  split; [exact H|]. exact (three_turns_are_prime "F" _ H).
Defined.

(** Turns of opposite faces commute: for two face-turn tokens whose turning
    faces are opposite each other, the two orders of execution end in the
    same matrix. *)
Theorem opposite_turns_commute (t1 t2 : string) (fp1 fp2 : footprint) (m : matrix) :
  (t1, fp1) ∈ turn_footprints → (t2, fp2) ∈ turn_footprints →
  turning fp2 = opposite (turning fp1) →
  execute_sequence [t1; t2] m = execute_sequence [t2; t1] m.
Proof.
  unfold turn_footprints. intros H1 H2.
  rewrite !elem_of_cons, elem_of_nil in H1. rewrite !elem_of_cons, elem_of_nil in H2.
  destruct_matrix m.
  repeat (destruct H1 as [H1|H1]); [simplify_eq..|destruct H1];
    (repeat (destruct H2 as [H2|H2]); [simplify_eq..|destruct H2];
     intros Hop; vm_compute in Hop; first [discriminate Hop | by vm_compute]).
Qed.

Lemma opposite_turns_commute_witness :
  ("R'", footprint_R) ∈ turn_footprints ∧ ("L", footprint_L) ∈ turn_footprints
  ∧ turning footprint_L = opposite (turning footprint_R)
  ∧ execute_sequence ["R'"; "L"] (after ["F"; "U"])
      = execute_sequence ["L"; "R'"] (after ["F"; "U"]).
Proof.
  assert (H1 : ("R'", footprint_R) ∈ turn_footprints) by (by repeat constructor).
  assert (H2 : ("L", footprint_L) ∈ turn_footprints) by (by repeat constructor).
  assert (H3 : turning footprint_L = opposite (turning footprint_R)) by reflexivity.
  split; [exact H1|]. split; [exact H2|]. split; [exact H3|].
  exact (opposite_turns_commute _ _ _ _ _ H1 H2 H3).
Defined.

(** ** Layer rotations and reorientations *)

(** The two layer rotations of a face undo each other and have order four;
    they leave the other five faces alone, and the clockwise one puts at row
    [i], column [j] the sticker that was at row [2 - j], column [i] (the
    counter-clockwise one, the sticker that was at row [j], column
    [2 - i]). *)
Theorem rotate_layer_laws (k : face_idx) (m : matrix) :
  _rotate_layer_counter_clockwise k (_rotate_layer_clockwise k m) = m
  ∧ _rotate_layer_clockwise k (_rotate_layer_counter_clockwise k m) = m
  ∧ _rotate_layer_clockwise k (_rotate_layer_clockwise k
      (_rotate_layer_clockwise k (_rotate_layer_clockwise k m))) = m
  ∧ (∀ i j, sticker (_rotate_layer_clockwise k m) (k, i, j)
            = sticker m (k, rev3 j, i))
  ∧ (∀ i j, sticker (_rotate_layer_counter_clockwise k m) (k, i, j)
            = sticker m (k, j, rev3 i))
  ∧ (∀ k', k' ≠ k →
       face (_rotate_layer_clockwise k m) k' = face m k'
       ∧ face (_rotate_layer_counter_clockwise k m) k' = face m k').
Proof.
  destruct_matrix m.
  repeat split; try (by destruct k); try (by destruct k, i, j);
    by destruct k, k'.
Qed.

(** The two reorientations undo each other on every matrix and each has
    order four.  The positive one hands Front's face to Up, Down's to Front,
    Back's (rows reversed) to Down and Up's (rows reversed) to Back, so the
    four centers move with them, and it keeps the centers of Right and
    Left. *)
Theorem orient_laws (m : matrix) :
  _orient_x_neg (_orient_x_pos m) = m
  ∧ _orient_x_pos (_orient_x_neg m) = m
  ∧ _orient_x_pos (_orient_x_pos (_orient_x_pos (_orient_x_pos m))) = m
  ∧ _orient_x_neg (_orient_x_neg (_orient_x_neg (_orient_x_neg m))) = m
  ∧ face (_orient_x_pos m) f0 = face m f2
  ∧ face (_orient_x_pos m) f2 = face m f3
  ∧ face (_orient_x_pos m) f3 = np.flipud (face m f5)
  ∧ face (_orient_x_pos m) f5 = np.flipud (face m f0)
  ∧ center (_orient_x_pos m) f1 = center m f1
  ∧ center (_orient_x_pos m) f4 = center m f4.
Proof. destruct_matrix m. repeat split. Qed.

(** The slice moves succeed on every matrix, leave all eighteen stickers of
    the Right and Left faces where they were, and carry the centers of the
    other four faces around: after M the center of Up is the former center
    of Front, Front's is Down's, Down's is Back's and Back's is Up's; M'
    carries them the other way. *)
Theorem slice_move_effect (m : matrix) :
  (∃ m', execute_manipulation "M" m = (m', Ok tt)
         ∧ face m' f1 = face m f1 ∧ face m' f4 = face m f4
         ∧ center m' f0 = center m f2 ∧ center m' f2 = center m f3
         ∧ center m' f3 = center m f5 ∧ center m' f5 = center m f0)
  ∧ (∃ m', execute_manipulation "M'" m = (m', Ok tt)
           ∧ face m' f1 = face m f1 ∧ face m' f4 = face m f4
           ∧ center m' f0 = center m f5 ∧ center m' f5 = center m f3
           ∧ center m' f3 = center m f2 ∧ center m' f2 = center m f0).
Proof.
  destruct_matrix m. split; (eexists; split; [by vm_compute|by repeat split]).
Qed.

(** ** The serializer on arbitrary matrices *)

Lemma FACE_MAP_lookup v s :
  FACE_MAP !! v = Some s ↔
  (v, s) ∈ [ (0, "U"); (1, "R"); (2, "F"); (3, "D"); (4, "L"); (5, "B") ].
Proof.
  unfold FACE_MAP. split.
  - apply elem_of_list_to_map_2.
  - apply elem_of_list_to_map_1. compute_done.
Qed.

Lemma FACE_MAP_cases v s :
  FACE_MAP !! v = Some s →
  ∃ k, v = face_num k ∧ s = String (face_letter k) "".
Proof.
  rewrite FACE_MAP_lookup, !elem_of_cons, elem_of_nil. intros H.
  repeat (destruct H as [H|H]); [simplify_eq..|destruct H];
    [by exists f0|by exists f1|by exists f2|by exists f3|by exists f4|by exists f5].
Qed.

Lemma FACE_MAP_face k :
  FACE_MAP !! face_num k = Some (String (face_letter k) "").
Proof. by destruct k. Qed.

Lemma FACE_MAP_is_Some v : is_Some (FACE_MAP !! v) ↔ (0 ≤ v ≤ 5)%Z.
Proof.
  split.
  - intros [s Hs]. destruct (FACE_MAP_cases _ _ Hs) as (k & -> & _).
    destruct k; cbn; lia.
  - intros Hv.
    assert (Hk : ∃ k, v = face_num k).
    { assert (v = 0 ∨ v = 1 ∨ v = 2 ∨ v = 3 ∨ v = 4 ∨ v = 5)%Z
        as [->|[->|[->|[->|[->| ->]]]]] by lia;
        [by exists f0|by exists f1|by exists f2|by exists f3|by exists f4|by exists f5]. }
    destruct Hk as [k ->]. rewrite FACE_MAP_face. by eexists.
Qed.

Lemma face_letter_inj k1 k2 : face_letter k1 = face_letter k2 → k1 = k2.
Proof. by destruct k1, k2. Qed.

Lemma face_letters_valid flat :
  Forall (λ v : Z, (0 ≤ v ≤ 5)%Z) flat → ∃ letters, face_letters flat = Ok letters.
Proof.
  induction 1 as [|v flat Hv _ [letters IH]]; [by eexists|].
  apply FACE_MAP_is_Some in Hv as [s Hs].
  exists (s :: letters). cbn [face_letters]. by rewrite Hs, IH.
Qed.

Lemma face_letters_Raise flat e :
  face_letters flat = Raise e →
  ∃ pre v post, flat = (pre ++ v :: post)%list
                ∧ Forall (λ x : Z, (0 ≤ x ≤ 5)%Z) pre
                ∧ ¬ (0 ≤ v ≤ 5)%Z ∧ e = KeyError v.
Proof.
  induction flat as [|v flat IH]; [discriminate|]. cbn [face_letters].
  destruct (FACE_MAP !! v) as [s|] eqn:Hv.
  - destruct (face_letters flat) as [ls|e'] eqn:Hl; [discriminate|].
    intros [= ->]. destruct (IH eq_refl) as (pre & w & post & -> & Hpre & Hw & ->).
    exists (v :: pre), w, post. split; [done|]. split; [|done].
    constructor; [|done]. apply FACE_MAP_is_Some. by eexists.
  - intros [= <-]. exists [], v, flat. split; [done|]. split; [constructor|].
    split; [|done]. rewrite <- FACE_MAP_is_Some, Hv. by intros [? ?].
Qed.

Lemma serialize_valid m : in_face_map m → ∃ s, to_kociemba_string m = Ok s.
Proof.
  unfold to_kociemba_string, in_face_map. intros H.
  destruct (face_letters_valid _ H) as [ls ->]. by eexists.
Qed.

Lemma serialize_Ok_valid m s : to_kociemba_string m = Ok s → in_face_map m.
Proof.
  unfold to_kociemba_string, in_face_map.
  destruct (face_letters (np.flatten m)) as [ls|] eqn:Hl; [|discriminate].
  intros _. apply face_letters_Ok in Hl.
  induction Hl as [|v l vs ls' Hv _ IH]; constructor; [|done].
  apply FACE_MAP_is_Some. by eexists.
Qed.

Lemma serialize_length m s :
  to_kociemba_string m = Ok s → String.length s = 54%nat.
Proof.
  unfold to_kociemba_string.
  destruct (face_letters (np.flatten m)) as [ls|] eqn:Hl; [|discriminate].
  intros [= <-]. rewrite (join_letters_length _ _ (face_letters_Ok _ _ Hl)).
  by destruct_matrix m.
Qed.

(** The serializer returns a string exactly when all 54 entries of the
    matrix are keys of [FACE_MAP] (the integers 0 to 5), and the string then
    has 54 characters; otherwise it raises [KeyError] for the first entry, in
    the order of [flatten], that is not a key. *)
Theorem serialize_succeeds_iff (m : matrix) :
  ((∃ s, to_kociemba_string m = Ok s) ↔ in_face_map m)
  ∧ (∀ s, to_kociemba_string m = Ok s → String.length s = 54%nat)
  ∧ (∀ e, to_kociemba_string m = Raise e →
       ∃ pre v post,
         np.flatten m = (pre ++ v :: post)%list
         ∧ Forall (λ x : Z, (0 ≤ x ≤ 5)%Z) pre
         ∧ ¬ (0 ≤ v ≤ 5)%Z ∧ e = KeyError v).
Proof.
  split; [split|split].
  - intros [s Hs]. by apply (serialize_Ok_valid m s).
  - apply serialize_valid.
  - apply serialize_length.
  - intros e. unfold to_kociemba_string.
    destruct (face_letters (np.flatten m)) as [ls|e'] eqn:Hl; [discriminate|].
    intros [= ->]. by apply face_letters_Raise.
Qed.

Lemma join_letter_cons c ls :
  str_join_empty (String c "" :: ls) = String c (str_join_empty ls).
Proof. unfold str_join_empty. by destruct ls. Qed.

Lemma letters_inj vs1 ls1 : ∀ vs2 ls2,
  Forall2 (λ v s, FACE_MAP !! v = Some s) vs1 ls1 →
  Forall2 (λ v s, FACE_MAP !! v = Some s) vs2 ls2 →
  length vs1 = length vs2 →
  str_join_empty ls1 = str_join_empty ls2 → vs1 = vs2.
Proof.
  intros vs2 ls2 H1. revert vs2 ls2.
  induction H1 as [|v1 s1 vs1 ls1 Hv1 _ IH]; intros vs2 ls2 H2 Hlen Hjoin.
  - by destruct vs2.
  - destruct H2 as [|v2 s2 vs2 ls2 Hv2 H2]; [discriminate|].
    destruct (FACE_MAP_cases _ _ Hv1) as (k1 & -> & ->).
    destruct (FACE_MAP_cases _ _ Hv2) as (k2 & -> & ->).
    rewrite !join_letter_cons in Hjoin. injection Hjoin as Hc Hrest.
    apply face_letter_inj in Hc as ->. f_equal.
    apply (IH vs2 ls2); [done| |done]. by injection Hlen.
Qed.

Lemma flatten_inj m1 m2 : np.flatten m1 = np.flatten m2 → m1 = m2.
Proof.
  destruct_matrix m1. destruct_matrix m2. cbn. intros H. by simplify_eq.
Qed.

Lemma flatten_length m : length (np.flatten m) = 54%nat.
Proof. by destruct_matrix m. Qed.

Lemma serialize_same_string m1 m2 s :
  to_kociemba_string m1 = Ok s → to_kociemba_string m2 = Ok s → m1 = m2.
Proof.
  unfold to_kociemba_string.
  destruct (face_letters (np.flatten m1)) as [ls1|] eqn:H1; [|discriminate].
  destruct (face_letters (np.flatten m2)) as [ls2|] eqn:H2; [|discriminate].
  intros [= <-] [= Hs]. apply flatten_inj.
  apply (letters_inj _ ls1 _ ls2);
    [by apply face_letters_Ok|by apply face_letters_Ok| |done].
  by rewrite !flatten_length.
Qed.

Lemma pristine_of_solved_string m :
  to_kociemba_string m = Ok SOLVED_KOCIEMBA_STRING → m = _get_pristine_state.
Proof. intros H. apply (serialize_same_string _ _ _ H). by vm_compute. Qed.

(** The serializer loses nothing: two matrices that serialize to the same
    string are the same matrix. *)
Theorem serialize_injective (m1 m2 : matrix) (s : string) :
  to_kociemba_string m1 = Ok s → to_kociemba_string m2 = Ok s → m1 = m2.
Proof. apply serialize_same_string. Qed.

Lemma serialize_injective_witness :
  to_kociemba_string (after ["F"; "F'"]) = Ok solved_literal
  ∧ to_kociemba_string _get_pristine_state = Ok solved_literal
  ∧ after ["F"; "F'"] = _get_pristine_state.
Proof.
  assert (H1 : to_kociemba_string (after ["F"; "F'"]) = Ok solved_literal)
    by (vm_compute; reflexivity).
  assert (H2 : to_kociemba_string _get_pristine_state = Ok solved_literal)
    by (vm_compute; reflexivity).
  split; [exact H1|]. split; [exact H2|].
  exact (serialize_injective _ _ _ H1 H2).
Defined.

(** The serialization equals the solved-state constant exactly when the
    matrix is the pristine one. *)
Theorem solved_string_iff_pristine (m : matrix) :
  to_kociemba_string m = Ok SOLVED_KOCIEMBA_STRING ↔ m = _get_pristine_state.
Proof.
  split; [apply pristine_of_solved_string|].
  intros ->. by vm_compute.
Qed.

(** ** Matrices reachable by moves *)

Lemma count_positive_elem (c : Z) (l : list Z) :
  (0 < foldr (λ v n, (indicator c v + n)%nat) 0%nat l)%nat ↔ c ∈ l.
Proof.
  induction l as [|v l IH]; cbn [foldr].
  - rewrite elem_of_nil. lia.
  - rewrite elem_of_cons, <- IH. unfold indicator.
    destruct (Z.eqb_spec v c) as [->|Hne]; [intuition lia|].
    split; [intros H; right; lia|intros [->|H]; [done|lia]].
Qed.

(** The moves only move entries around: whatever holds of every entry of the
    matrix before a move holds of every entry after it. *)
Lemma table_keeps_Forall (P : Z → Prop) t f m :
  (t, f) ∈ _move_dispatcher_items →
  Forall P (np.flatten m) → Forall P (np.flatten (f m)).
Proof.
  intros H. rewrite !Forall_forall. intros Hold x Hx. apply Hold.
  apply count_positive_elem. change (0 < count_colour x m)%nat.
  rewrite <- (table_keeps_count t f x m H). by apply count_positive_elem.
Qed.

Lemma sequence_keeps_Forall (P : Z → Prop) moves : ∀ m m',
  execute_sequence moves m = (m', Ok tt) →
  Forall P (np.flatten m) → Forall P (np.flatten m').
Proof.
  induction moves as [|t moves IH]; intros m m'; cbn [execute_sequence].
  - by intros [= <-].
  - unfold bind, execute_manipulation, _move_dispatcher.
    destruct (list_to_map _move_dispatcher_items !! t) as [f|] eqn:Hf.
    + apply elem_of_list_to_map_2 in Hf. cbn [mutate]. intros Hrun Hm.
      apply (IH _ _ Hrun). by apply (table_keeps_Forall P t).
    + discriminate.
Qed.

Lemma count_char_letters k vs ls :
  Forall2 (λ v s, FACE_MAP !! v = Some s) vs ls →
  count_char (face_letter k) (str_join_empty ls)
  = foldr (λ v n, (indicator (face_num k) v + n)%nat) 0%nat vs.
Proof.
  induction 1 as [|v s vs ls Hv _ IH]; [reflexivity|].
  destruct (FACE_MAP_cases _ _ Hv) as (k' & -> & ->).
  rewrite join_letter_cons. cbn [count_char foldr]. rewrite IH. f_equal.
  by destruct k, k'.
Qed.

(** After every sequence of supported moves on a new engine the serializer
    succeeds, and its output has 54 characters, nine of each of the letters
    U, R, F, D, L and B. *)
Theorem reachable_serializes (moves : list string) :
  Forall (λ t, t ∈ supported_tokens) moves →
  ∃ m' s, execute_sequence moves _get_pristine_state = (m', Ok tt)
          ∧ to_kociemba_string m' = Ok s
          ∧ String.length s = 54%nat
          ∧ ∀ k, count_char (face_letter k) s = 9%nat.
Proof.
  intros Hall.
  destruct (sequence_keeps_count moves _get_pristine_state Hall) as (m' & Hrun & Hcount).
  assert (Hvalid : in_face_map m').
  { apply (sequence_keeps_Forall _ moves _ _ Hrun).
    vm_compute. repeat constructor; discriminate. }
  destruct (serialize_valid m' Hvalid) as [s Hs].
  exists m', s. split; [done|]. split; [done|].
  split; [by apply (serialize_length m')|].
  intros k. revert Hs. unfold to_kociemba_string.
  destruct (face_letters (np.flatten m')) as [ls|] eqn:Hl; [|discriminate].
  intros [= <-]. rewrite (count_char_letters k _ _ (face_letters_Ok _ _ Hl)).
  change (count_colour (face_num k) m' = 9%nat). rewrite Hcount. by destruct k.
Qed.

Lemma reachable_serializes_witness :
  Forall (λ t, t ∈ supported_tokens) ["M"; "R'"; "U"]
  ∧ ∃ m' s, execute_sequence ["M"; "R'"; "U"] _get_pristine_state = (m', Ok tt)
            ∧ to_kociemba_string m' = Ok s
            ∧ String.length s = 54%nat.
Proof.
  assert (H : Forall (λ t, t ∈ supported_tokens) ["M"; "R'"; "U"])
    by (repeat (constructor; [compute_done|]); constructor).
  split; [exact H|].
  destruct (reachable_serializes _ H) as (m' & s & Hrun & Hs & Hlen & _).
  by exists m', s.
Defined.

(** ** The move endpoint *)

(** A request whose move is missing, empty or not one of the fourteen
    tokens is answered with status 400 and leaves the matrix as it was; the
    detail is the fixed text for a missing or empty move, and the engine's
    message with the offending token otherwise. *)
Theorem move_endpoint_rejects (t : string) (m : matrix) :
  t ∉ supported_tokens →
  process_manipulation None m
    = (m, Raise (HTTPException 400 "Move not specified in payload."))
  ∧ process_manipulation (Some t) m
    = (m, Raise (HTTPException 400
                   (if decide (t = "") then "Move not specified in payload."
                    else "Unknown move notation: " +:+ t))).
Proof.
  intros Hout. split; [reflexivity|].
  destruct t as [|c t]; [reflexivity|].
  unfold process_manipulation. rewrite (execute_unknown _ _ Hout).
  by destruct (decide (String c t = "")).
Qed.

Lemma move_endpoint_rejects_witness :
  ("R2" ∉ supported_tokens)
  ∧ process_manipulation (Some "R2") (after ["F"])
    = (after ["F"], Raise (HTTPException 400 "Unknown move notation: R2")).
Proof.
  assert (H : "R2" ∉ supported_tokens) by compute_done.
  split; [exact H|]. exact (proj2 (move_endpoint_rejects "R2" (after ["F"]) H)).
Defined.

(** A request for one of the fourteen tokens, on a matrix whose entries are
    all keys of [FACE_MAP], succeeds: the matrix becomes the one the table's
    transformation gives, whose entries are again keys of [FACE_MAP], and
    the answer echoes the move and carries the serialization of the new
    matrix. *)
Theorem move_endpoint_accepts (t : string) (m : matrix) :
  t ∈ supported_tokens → in_face_map m →
  ∃ f s, _move_dispatcher !! t = Some f
         ∧ process_manipulation (Some t) m
           = (f m, Ok {| move := t; cube_string := s |})
         ∧ to_kociemba_string (f m) = Ok s
         ∧ in_face_map (f m).
Proof.
  intros Hin Hm. destruct (execute_cases t m Hin) as (f & Hf & Hrun).
  assert (Hfm : in_face_map (f m)) by (by apply (table_keeps_Forall _ t)).
  destruct (serialize_valid (f m) Hfm) as [s Hs].
  exists f, s. split; [by apply (elem_of_list_to_map_1 _ _ _ dispatcher_keys_nodup)|].
  split; [|done]. unfold process_manipulation.
  destruct t as [|c t]; [exfalso; revert Hin; compute_done|].
  by rewrite Hrun, Hs.
Qed.

Lemma move_endpoint_accepts_witness :
  "M'" ∈ supported_tokens ∧ in_face_map (after ["F"])
  ∧ ∃ f s, process_manipulation (Some "M'") (after ["F"])
           = (f (after ["F"]), Ok {| move := "M'"; cube_string := s |}).
Proof.
  assert (H : "M'" ∈ supported_tokens) by compute_done.
  assert (Hm : in_face_map (after ["F"]))
    by (vm_compute; repeat constructor; discriminate).
  split; [exact H|]. split; [exact Hm|].
  destruct (move_endpoint_accepts "M'" _ H Hm) as (f & s & _ & Hrun & _).
  by exists f, s.
Defined.

(** ** The solve endpoint away from the solved state *)

(** The endpoint answers successfully without consulting the oracle for the
    pristine matrix and for no other. *)
Theorem solve_skips_oracle_iff_pristine (m : matrix) :
  (∃ r, discover_solution_path m = Finish (Ok r)) ↔ m = _get_pristine_state.
Proof.
  split.
  - intros [r Hr]. apply pristine_of_solved_string. revert Hr.
    unfold discover_solution_path.
    destruct (to_kociemba_string m) as [s|]; [|discriminate].
    destruct (String.eqb_spec s SOLVED_KOCIEMBA_STRING) as [->|]; [done|discriminate].
  - intros ->. by eexists.
Qed.

(** On a matrix other than the pristine one whose entries are all keys of
    [FACE_MAP], the endpoint calls the oracle exactly once, with the
    serialization of the matrix.  If the oracle returns a solution, the
    answer carries it together with its tokenization, which cannot fail; if
    it raises [ValueError], the answer is status 400 with the oracle's
    message; if it raises anything else, status 500 with the fixed text. *)
Theorem solve_endpoint_unsolved (m : matrix) (solve : string → result string) :
  in_face_map m → m ≠ _get_pristine_state →
  ∃ s, to_kociemba_string m = Ok s
       ∧ (run_with solve (discover_solution_path m)).2 = [s]
       ∧ (∀ solution_path, solve s = Ok solution_path →
            ∃ move_sequence,
              _tokenize_solution_string solution_path = Ok move_sequence
              ∧ (run_with solve (discover_solution_path m)).1
                = Ok {| solutionString := solution_path;
                        parsedMoves := move_sequence |})
       ∧ (∀ msg, solve s = Raise (ValueError msg) →
            (run_with solve (discover_solution_path m)).1
            = Raise (HTTPException 400 msg))
       ∧ (∀ e, solve s = Raise e → (∀ msg, e ≠ ValueError msg) →
            (run_with solve (discover_solution_path m)).1
            = Raise (HTTPException 500 "An internal error occurred during solving.")).
Proof.
  intros Hm Hne.
  destruct (serialize_valid m Hm) as [s Hs].
  exists s. split; [done|].
  assert (Hs' : s ≠ SOLVED_KOCIEMBA_STRING).
  { intros ->. by apply Hne, pristine_of_solved_string. }
  unfold discover_solution_path. rewrite Hs.
  destruct (String.eqb_spec s SOLVED_KOCIEMBA_STRING) as [|_]; [done|].
  cbn [run_with fst snd]. split; [reflexivity|]. split; [|split].
  - intros solution_path ->. exists (entry_for <$> str_split solution_path).
    split; [apply tokenize_map|]. by rewrite tokenize_map.
  - by intros msg ->.
  - intros e -> He. destruct e; try reflexivity. by destruct (He msg).
Qed.

Lemma solve_endpoint_unsolved_witness :
  in_face_map (after ["F"]) ∧ after ["F"] ≠ _get_pristine_state
  ∧ ∃ s, to_kociemba_string (after ["F"]) = Ok s
         ∧ (run_with (λ _, Ok "F'") (discover_solution_path (after ["F"]))).2 = [s].
Proof.
  assert (Hm : in_face_map (after ["F"]))
    by (vm_compute; repeat constructor; discriminate).
  assert (Hne : after ["F"] ≠ _get_pristine_state)
    by (vm_compute; intros H; discriminate H).
  split; [exact Hm|]. split; [exact Hne|].
  destruct (solve_endpoint_unsolved (after ["F"]) (λ _, Ok "F'") Hm Hne)
    as (s & Hs & Hlog & _).
  by exists s.
Defined.

(** ** The tokenizer and whitespace *)

Lemma split_from_sep sp a b : ∀ cur,
  isspace sp = true →
  split_from cur (a +:+ String sp b) = (split_from cur a ++ split_from "" b)%list.
Proof.
  induction a as [|c a IH]; intros cur Hsp.
  - rewrite str_app_nil_l. cbn [split_from]. rewrite Hsp. by destruct cur.
  - rewrite str_app_cons. cbn [split_from]. destruct (isspace c).
    + destruct cur; cbn [app]; by rewrite IH.
    + by rewrite IH.
Qed.

Lemma split_from_blank s : all_space s → split_from "" s = [].
Proof.
  induction s as [|c s IH]; [done|]. intros [Hc Hs].
  cbn [split_from]. rewrite Hc. by apply IH.
Qed.

(** A string made of whitespace only, the empty string included, is
    tokenized to the empty list. *)
Theorem tokenize_blank (s : string) :
  all_space s → _tokenize_solution_string s = Ok [].
Proof.
  intros Hs. rewrite tokenize_map. unfold str_split.
  by rewrite (split_from_blank _ Hs).
Qed.

Lemma tokenize_blank_witness :
  all_space "  " ∧ _tokenize_solution_string "  " = Ok [].
Proof.
  assert (H : all_space "  ") by (by vm_compute).
  split; [exact H|]. exact (tokenize_blank _ H).
Defined.

(** Tokenizing two strings joined by a whitespace character gives the
    entries of the first followed by the entries of the second. *)
Theorem tokenize_concat (a b : string) (sp : ascii) :
  isspace sp = true →
  ∃ ea eb, _tokenize_solution_string a = Ok ea
           ∧ _tokenize_solution_string b = Ok eb
           ∧ _tokenize_solution_string (a +:+ String sp b) = Ok (ea ++ eb)%list.
Proof.
  intros Hsp. exists (entry_for <$> str_split a), (entry_for <$> str_split b).
  rewrite !tokenize_map. repeat split. unfold str_split.
  by rewrite (split_from_sep sp a b "" Hsp), fmap_app.
Qed.

Lemma tokenize_concat_witness :
  isspace "009"%char = true
  ∧ _tokenize_solution_string ("R2 U" +:+ String "009"%char "F' D2")
    = Ok [Group ["R"; "R"]; Single "U"; Single "F'"; Group ["D"; "D"]].
Proof.
  assert (H : isspace "009"%char = true) by reflexivity.
  split; [exact H|].
  destruct (tokenize_concat "R2 U" "F' D2" "009"%char H) as (ea & eb & Ha & Hb & Hab).
  rewrite Hab. vm_compute in Ha. vm_compute in Hb.
  injection Ha as <-. injection Hb as <-. reflexivity.
Defined.
